(** * Weather tool handler ([servers/weather_server.py])

    A shallow embedding of the one handler the server registers,
    [get_weather], together with the small part of Python it needs:
    strings as sequences of Unicode code points, formatted string literals,
    and coroutines driven by an event loop over a process state. *)

From Stdlib Require Import List String Ascii NArith Arith Bool Lia.
Import ListNotations.

Set Implicit Arguments.

(** ** Python strings *)

Module PyStr.

(** A Python [str] is an immutable sequence of Unicode code points;
    [len] counts code points, not bytes. *)
Definition codepoint := N.
Definition str := list codepoint.

(** The source file is UTF-8 text: a literal between quotes denotes the
    code points its bytes decode to. *)
Fixpoint utf8_decode (bs : list N) : str :=
  match bs with
  | [] => []
  | b0 :: r0 =>
    if (b0 <? 128)%N then b0 :: utf8_decode r0
    else if (b0 <? 224)%N then
      match r0 with
      | b1 :: r1 => ((b0 - 192) * 64 + (b1 - 128))%N :: utf8_decode r1
      | _ => []
      end
    else if (b0 <? 240)%N then
      match r0 with
      | b1 :: b2 :: r2 =>
        ((b0 - 224) * 4096 + (b1 - 128) * 64 + (b2 - 128))%N
          :: utf8_decode r2
      | _ => []
      end
    else
      match r0 with
      | b1 :: b2 :: b3 :: r3 =>
        ((b0 - 240) * 262144 + (b1 - 128) * 4096
         + (b2 - 128) * 64 + (b3 - 128))%N :: utf8_decode r3
      | _ => []
      end
  end.

Definition lit (s : string) : str :=
  utf8_decode (map N_of_ascii (list_ascii_of_string s)).

(** [len(s)] *)
Definition len (s : str) : nat := List.length s.

(** [s + t] *)
Definition add (s t : str) : str := s ++ t.

(** [s[i]], [None] where Python raises [IndexError] (no negative index). *)
Definition item (s : str) (i : nat) : option codepoint := nth_error s i.

(** [s[:n]] and [s[n:]] for a non-negative [n]. *)
Definition slice_to (n : nat) (s : str) : str := firstn n s.
Definition slice_from (n : nat) (s : str) : str := skipn n s.

(** [s.startswith(p)] *)
Fixpoint startswith (s p : str) {struct p} : bool :=
  match p, s with
  | [], _ => true
  | _ :: _, [] => false
  | c :: p', d :: s' => (c =? d)%N && startswith s' p'
  end.

(** [sub in s] *)
Fixpoint contains (s sub : str) : bool :=
  startswith s sub
  || match s with
     | [] => false
     | _ :: s' => contains s' sub
     end.

(** [s < t]: strings compare lexicographically, code point by code point. *)
Fixpoint str_lt (s t : str) : bool :=
  match s, t with
  | _, [] => false
  | [], _ :: _ => true
  | c :: s', d :: t' => (c <? d)%N || ((c =? d)%N && str_lt s' t')
  end.

End PyStr.

Import PyStr.

(** ** Formatted string literals *)

Module FString.

Inductive exn : Type :=
| NameError (name : string).

Inductive result (A : Type) : Type :=
| Ok (a : A)
| Err (e : exn).
Arguments Ok {A} a.
Arguments Err {A} e.

(** The pieces of an f-string: literal text, and a replacement field
    [{name}] with neither conversion nor format specification. *)
Inductive fpart : Type :=
| Constant (s : str)
| FormattedValue (name : string).

Definition JoinedStr := list fpart.

(** Local variables of a call; the handler's are all of type [str]. *)
Definition locals := list (string * str).

Fixpoint lookup (x : string) (env : locals) : option str :=
  match env with
  | [] => None
  | (y, v) :: env' => if String.eqb x y then Some v else lookup x env'
  end.

(** [format(v, "")] of a [str] is the string itself. *)
Definition format (v : str) : str := v.

(** Pieces are evaluated left to right and joined. *)
Fixpoint eval (env : locals) (ps : JoinedStr) : result str :=
  match ps with
  | [] => Ok []
  | Constant s :: ps' =>
    match eval env ps' with
    | Ok t => Ok (add s t)
    | Err e => Err e
    end
  | FormattedValue x :: ps' =>
    match lookup x env with
    | None => Err (NameError x)
    | Some v =>
      match eval env ps' with
      | Ok t => Ok (add (format v) t)
      | Err e => Err e
      end
    end
  end.

End FString.

Import FString.

(** ** Coroutines *)

Module Coro.

Section Coroutine.

(** The state of the process a coroutine runs in. *)
Variable W : Type.

(** What the body of an [async def] can do: finish with a value, raise,
    suspend at an [await] (control goes back to the event loop until it
    resumes the rest), read the process state, or change it. *)
Inductive coro (R : Type) : Type :=
| Return (r : R)
| Raise (e : exn)
| Await (k : coro R)
| ReadState (k : W -> coro R)
| WriteState (w : W) (k : coro R).
Arguments Return {R} r.
Arguments Raise {R} e.
Arguments Await {R} k.
Arguments ReadState {R} k.
Arguments WriteState {R} w k.

(** One resumption by the event loop ([coro.send(None)]): the body runs
    up to its next suspension point or to its end. *)
Inductive progress (R : Type) : Type :=
| Finished (o : result R)
| Suspended (rest : coro R).
Arguments Finished {R} o.
Arguments Suspended {R} rest.

Fixpoint send {R} (c : coro R) (w : W) : progress R * W :=
  match c with
  | Return r => (Finished (Ok r), w)
  | Raise e => (Finished (Err e), w)
  | Await k => (Suspended k, w)
  | ReadState k => send (k w) w
  | WriteState w' k => send k w'
  end.

(** The event loop resuming the coroutine until it is done
    ([run_until_complete]), with the number of suspensions on the way. *)
Record completion (R : Type) : Type := Completion {
  outcome : result R;
  final : W;
  suspensions : nat
}.

Fixpoint run_until_complete {R} (c : coro R) (w : W) : completion R :=
  match c with
  | Return r => Completion (Ok r) w 0
  | Raise e => Completion (Err e) w 0
  | Await k =>
    let d := run_until_complete k w in
    Completion (outcome d) (final d) (S (suspensions d))
  | ReadState k => run_until_complete (k w) w
  | WriteState w' k => run_until_complete k w'
  end.

(** The accesses to the process state that a run of the coroutine makes,
    in order: every read and every write, whatever the value written. *)
Inductive access : Type :=
| Read
| Write.

Fixpoint accesses {R} (c : coro R) (w : W) : list access :=
  match c with
  | Return _ => []
  | Raise _ => []
  | Await k => accesses k w
  | ReadState k => Read :: accesses (k w) w
  | WriteState w' k => Write :: accesses k w'
  end.

End Coroutine.

Arguments Return {W R} r.
Arguments Raise {W R} e.
Arguments Await {W R} k.
Arguments ReadState {W R} k.
Arguments WriteState {W R} w k.
Arguments Finished {W R} o.
Arguments Suspended {W R} rest.

End Coro.

Import Coro.

(** ** The handler *)

(** [f"It's always sunny in {location}"] *)
Definition get_weather_fstring : JoinedStr :=
  [Constant (lit "It's always sunny in "); FormattedValue "location"].

(** [async def get_weather(location: str) -> str] *)
Definition get_weather {W : Type} (location : str) : coro W str :=
  let env : locals := [("location"%string, location)] in
  match eval env get_weather_fstring with
  | Ok s => Return s
  | Err e => Raise e
  end.

(** The result of awaiting [get_weather(location)] in a process in state [w]. *)
Definition call {W : Type} (location : str) (w : W) : completion W str :=
  run_until_complete (get_weather location) w.

Example ex_paris :
  outcome (call (lit "Paris") tt) = Ok (lit "It's always sunny in Paris").
Proof. reflexivity. Qed.

Example ex_new_york :
  outcome (call (lit "New York") tt)
  = Ok (lit "It's always sunny in New York").
Proof. reflexivity. Qed.

Example ex_lit_sao_paulo :
  lit "São Paulo" = [83; 227; 111; 32; 80; 97; 117; 108; 111]%N.
Proof. reflexivity. Qed.


Unset Implicit Arguments.

(** ** Facts about the string operations *)

Lemma startswith_app (p s : str) : startswith (p ++ s) p = true.
Proof.
  induction p as [|c p IH]; [reflexivity|].
  cbn. now rewrite N.eqb_refl, IH.
Qed.

Lemma startswith_spec (s p : str) :
  startswith s p = true <-> exists t, s = p ++ t.
Proof.
  revert s; induction p as [|c p IH]; intros s.
  - cbn. split; [exists s; reflexivity | reflexivity].
  - destruct s as [|d s]; cbn.
    + split; [discriminate | intros [t H]; discriminate].
    + rewrite andb_true_iff, N.eqb_eq, IH. split.
      * intros [-> [t ->]]. now exists t.
      * intros [t H]. injection H as -> ->. split; [reflexivity | now exists t].
Qed.

Lemma contains_spec (s sub : str) :
  contains s sub = true <-> exists a b, s = a ++ sub ++ b.
Proof.
  induction s as [|d s IH].
  - cbn. rewrite orb_false_r, startswith_spec. split.
    + intros [t H]. now exists [], t.
    + intros [a [b H]]. symmetry in H.
      apply app_eq_nil in H as [-> H]. now exists b.
  - change (contains (d :: s) sub)
      with (startswith (d :: s) sub || contains s sub).
    rewrite orb_true_iff, startswith_spec, IH. split.
    + intros [[t H] | [a [b H]]].
      * now exists [], t.
      * exists (d :: a), b. now rewrite H.
    + intros [[|x a] [b H]].
      * left. now exists b.
      * right. injection H as _ H. now exists a, b.
Qed.

Lemma contains_suffix (p s : str) : contains (p ++ s) s = true.
Proof.
  apply contains_spec. exists p, []. now rewrite app_nil_r.
Qed.

(** ** What the handler computes *)

(** The f-string evaluates, for every binding of [location], to the literal
    text followed by the value. *)
Lemma eval_get_weather_fstring (v : str) :
  eval [("location"%string, v)] get_weather_fstring
  = Ok (add (lit "It's always sunny in ") v).
Proof.
  unfold get_weather_fstring.
  cbn [eval]. change (lookup "location" [("location"%string, v)]) with (Some v).
  unfold format, add. now rewrite app_nil_r.
Qed.

(** The body is a single [return]. *)
Lemma get_weather_body (W : Type) (location : str) :
  @get_weather W location
  = Return (add (lit "It's always sunny in ") location).
Proof.
  unfold get_weather. now rewrite eval_get_weather_fstring.
Qed.

Lemma call_completion (W : Type) (location : str) (w : W) :
  call location w
  = Completion (Ok (add (lit "It's always sunny in ") location)) w 0.
Proof.
  unfold call. now rewrite get_weather_body.
Qed.

Lemma len_add (s t : str) : len (add s t) = len s + len t.
Proof. apply length_app. Qed.

Lemma len_prefix : len (lit "It's always sunny in ") = 21.
Proof. reflexivity. Qed.

Lemma item_add_right (p s : str) (i : nat) :
  item (add p s) (len p + i) = item s i.
Proof.
  unfold item, add, len.
  rewrite nth_error_app2 by lia.
  f_equal. lia.
Qed.

Lemma slice_to_add (p s : str) : slice_to (len p) (add p s) = p.
Proof.
  unfold slice_to, add, len.
  rewrite firstn_app, Nat.sub_diag, firstn_all. cbn. apply app_nil_r.
Qed.

Lemma slice_from_add (p s : str) : slice_from (len p) (add p s) = s.
Proof.
  unfold slice_from, add, len.
  rewrite skipn_app, Nat.sub_diag, skipn_all. reflexivity.
Qed.

Lemma Ok_inj (A : Type) (a b : A) : Ok a = Ok b -> a = b.
Proof. now intros [= ->]. Qed.

(** ** The handler's contract *)

(** C1. For every string [L], awaiting [get_weather(L)] returns exactly
    ["It's always sunny in " + L]. *)
Theorem get_weather_returns_template (W : Type) (w : W) (L : str) :
  outcome (call L w) = Ok (add (lit "It's always sunny in ") L).
Proof.
  now rewrite call_completion.
Qed.

(** C2, as the specification states it, fails on the empty string: the
    handler returns 21 code points there, not [len("") + 22]. *)
Lemma get_weather_len_22_fails :
  exists s : str,
    outcome (call (lit "") tt) = Ok s /\ len s = 21 /\ len s <> len (lit "") + 22.
Proof.
  exists (lit "It's always sunny in ").
  split; [reflexivity | split; [reflexivity | cbn; lia]].
Qed.

(** C2 (amended). For every string [L], the string [get_weather(L)] returns
    has length [len(L) + 21]: the literal text has 21 code points. *)
Theorem get_weather_len (W : Type) (w : W) (L : str) :
  exists s : str, outcome (call L w) = Ok s /\ len s = len L + 21.
Proof.
  exists (add (lit "It's always sunny in ") L).
  split; [now rewrite call_completion|].
  rewrite len_add, len_prefix. lia.
Qed.

(** C3. The input is neither escaped, trimmed nor transformed: the returned
    string carries, from index 21 on, exactly the code points of [L], at
    every index, whatever they are; and [get_weather("São Paulo")] is
    ["It's always sunny in São Paulo"]. *)
Theorem get_weather_verbatim (W : Type) (w : W) :
  (forall L : str, exists s : str,
      outcome (call L w) = Ok s /\
      forall i : nat, item s (21 + i) = item L i)
  /\ outcome (call (lit "São Paulo") w)
     = Ok (lit "It's always sunny in São Paulo").
Proof.
  split.
  - intros L. exists (add (lit "It's always sunny in ") L).
    split; [now rewrite call_completion|].
    intros i. rewrite <- len_prefix. apply item_add_right.
  - now rewrite call_completion.
Qed.

(** C4. On the empty string the handler returns exactly the literal text
    ["It's always sunny in "], trailing space included. *)
Theorem get_weather_empty (W : Type) (w : W) :
  outcome (call (lit "") w) = Ok (lit "It's always sunny in ").
Proof.
  now rewrite call_completion.
Qed.

(** C5. For every string [L], the string [get_weather(L)] returns is
    non-empty and has [L] as a substring ([L in result]). *)
Theorem get_weather_nonempty_contains (W : Type) (w : W) (L : str) :
  exists s : str,
    outcome (call L w) = Ok s /\ 0 < len s /\ contains s L = true.
Proof.
  exists (add (lit "It's always sunny in ") L).
  split; [now rewrite call_completion|]. split.
  - rewrite len_add, len_prefix. lia.
  - apply contains_suffix.
Qed.

(** C6. The handler is deterministic and free of side effects: a second
    invocation on the same input, run after the first, returns what the
    first returned; the result is the same in any two process states, of
    any two processes; the process state after the call is the state
    before it; and the run makes no access to the process state at all,
    neither a read (nothing but the argument is read) nor a write. *)
Theorem get_weather_pure (W W' : Type) (w : W) (w' : W') (L : str) :
  outcome (call L (final (call L w))) = outcome (call L w)
  /\ outcome (call L w) = outcome (call L w')
  /\ final (call L w) = w
  /\ accesses (get_weather L) w = [].
Proof.
  rewrite !call_completion, get_weather_body.
  split; [reflexivity|]. split; [reflexivity|]. split; reflexivity.
Qed.

(** C7. The handler signals no error on any string: the call returns a
    string, its outcome is never an exception, and the body is never a
    [raise]. *)
Theorem get_weather_no_error (W : Type) (w : W) (L : str) :
  (exists s : str, outcome (call L w) = Ok s)
  /\ (forall e : exn, outcome (call L w) <> Err e)
  /\ (forall e : exn, @get_weather W L <> Raise e).
Proof.
  rewrite call_completion, get_weather_body. cbn. repeat split.
  - now eexists.
  - discriminate.
  - discriminate.
Qed.

(** C8. The handler terminates on every string without suspending: the
    first resumption by the event loop already finishes the coroutine with
    its result, in an unchanged process state, and a run to completion
    counts no suspension. *)
Theorem get_weather_never_suspends (W : Type) (w : W) (L : str) :
  send (get_weather L) w
  = (Finished (Ok (add (lit "It's always sunny in ") L)), w)
  /\ suspensions (call L w) = 0.
Proof.
  rewrite call_completion, get_weather_body. split; reflexivity.
Qed.

(** C9. Round trip: the literal text has 21 code points, every returned
    string starts with it, and dropping the first 21 code points of
    [get_weather(L)] gives back [L]. *)
Theorem get_weather_round_trip (W : Type) (w : W) :
  len (lit "It's always sunny in ") = 21
  /\ forall L : str, exists s : str,
       outcome (call L w) = Ok s
       /\ startswith s (lit "It's always sunny in ") = true
       /\ slice_to 21 s = lit "It's always sunny in "
       /\ slice_from 21 s = L.
Proof.
  split; [reflexivity|].
  intros L. exists (add (lit "It's always sunny in ") L).
  split; [now rewrite call_completion|].
  split; [apply startswith_app|].
  rewrite <- len_prefix. split; [apply slice_to_add | apply slice_from_add].
Qed.

(** C10. Injectivity: on two different strings the handler returns two
    different results. *)
Theorem get_weather_injective (W : Type) (w : W) (L1 L2 : str) :
  L1 <> L2 -> outcome (call L1 w) <> outcome (call L2 w).
Proof.
  intros Hne Heq. apply Hne.
  rewrite !call_completion in Heq. cbn [outcome] in Heq.
  apply Ok_inj in Heq. unfold add in Heq.
  exact (app_inv_head _ _ _ Heq).
Qed.

Lemma get_weather_injective_witness :
  lit "Paris" <> lit "Rome"
  /\ outcome (call (lit "Paris") tt) <> outcome (call (lit "Rome") tt).
Proof.
  assert (H : lit "Paris" <> lit "Rome") by (vm_compute; discriminate).
  split; [exact H | exact (get_weather_injective unit tt (lit "Paris") (lit "Rome") H)].
Defined.

(** ** Further properties of the handler *)

Lemma startswith_add_cancel (p a b : str) :
  startswith (add p a) (add p b) = startswith a b.
Proof.
  unfold add. induction p as [|c p IH]; [reflexivity|].
  cbn. now rewrite N.eqb_refl, IH.
Qed.

Lemma str_lt_add_cancel (p a b : str) :
  str_lt (add p a) (add p b) = str_lt a b.
Proof.
  unfold add. induction p as [|c p IH]; [reflexivity|].
  cbn. now rewrite N.ltb_irrefl, N.eqb_refl, IH.
Qed.

Lemma contains_add_left (p s sub : str) :
  contains s sub = true -> contains (add p s) sub = true.
Proof.
  rewrite !contains_spec. intros [a [b ->]].
  exists (p ++ a), b. unfold add. now rewrite app_assoc.
Qed.

(** X1. The strings the handler can return are exactly the strings that
    start with ["It's always sunny in "]: every such string is the result
    of some call, and nothing else is. *)
Theorem get_weather_image (W : Type) (w : W) (s : str) :
  (exists L : str, outcome (call L w) = Ok s)
  <-> startswith s (lit "It's always sunny in ") = true.
Proof.
  rewrite startswith_spec. split.
  - intros [L H]. rewrite call_completion in H. cbn [outcome] in H.
    apply Ok_inj in H. now exists L.
  - intros [L ->]. exists L. now rewrite call_completion.
Qed.

(** X2. Appending to the input appends to the output:
    [get_weather(L1 + L2)] is [get_weather(L1) + L2]. *)
Theorem get_weather_add (W : Type) (w : W) (L1 L2 : str) :
  exists s1 : str,
    outcome (call L1 w) = Ok s1
    /\ outcome (call (add L1 L2) w) = Ok (add s1 L2).
Proof.
  exists (add (lit "It's always sunny in ") L1).
  rewrite !call_completion. cbn [outcome]. split; [reflexivity|].
  unfold add. now rewrite app_assoc.
Qed.

(** X3. The handler preserves and reflects the prefix order: the result
    for [L2] starts with the result for [L1] exactly when [L2] starts
    with [L1]. *)
Theorem get_weather_startswith (W : Type) (w : W) (L1 L2 : str) :
  exists s1 s2 : str,
    outcome (call L1 w) = Ok s1 /\ outcome (call L2 w) = Ok s2
    /\ startswith s2 s1 = startswith L2 L1.
Proof.
  exists (add (lit "It's always sunny in ") L1),
         (add (lit "It's always sunny in ") L2).
  rewrite !call_completion. cbn [outcome].
  split; [reflexivity | split; [reflexivity | apply startswith_add_cancel]].
Qed.

(** X4. The handler preserves and reflects the order of strings: the
    result for [L1] is less than the result for [L2] exactly when [L1] is
    less than [L2]. *)
Theorem get_weather_str_lt (W : Type) (w : W) (L1 L2 : str) :
  exists s1 s2 : str,
    outcome (call L1 w) = Ok s1 /\ outcome (call L2 w) = Ok s2
    /\ str_lt s1 s2 = str_lt L1 L2.
Proof.
  exists (add (lit "It's always sunny in ") L1),
         (add (lit "It's always sunny in ") L2).
  rewrite !call_completion. cbn [outcome].
  split; [reflexivity | split; [reflexivity | apply str_lt_add_cancel]].
Qed.

(** X5. Every substring of the input is a substring of the output. *)
Theorem get_weather_contains_mono (W : Type) (w : W) (L sub : str) :
  contains L sub = true ->
  exists s : str, outcome (call L w) = Ok s /\ contains s sub = true.
Proof.
  intros H. exists (add (lit "It's always sunny in ") L).
  split; [now rewrite call_completion | now apply contains_add_left].
Qed.

Lemma get_weather_contains_mono_witness :
  contains (lit "New York") (lit "York") = true
  /\ exists s : str,
       outcome (call (lit "New York") tt) = Ok s
       /\ contains s (lit "York") = true.
Proof.
  split; [reflexivity|].
  apply (get_weather_contains_mono unit tt (lit "New York") (lit "York")).
  reflexivity.
Defined.

(** X6. The handler never returns its input unchanged: no string is a
    fixed point of [get_weather]. *)
Theorem get_weather_no_fixed_point (W : Type) (w : W) (L : str) :
  outcome (call L w) <> Ok L.
Proof.
  rewrite call_completion. cbn [outcome]. intros H.
  apply Ok_inj in H. apply (f_equal len) in H.
  rewrite len_add, len_prefix in H. lia.
Qed.
